(** * glTF-Transform: the Container facade, and the packing rule its padding
    test pins down.

    Sources embedded here:
    - [packages/core/src/container.ts]: class [Container] (fields, [clone],
      the eight factory methods);
    - [packages/core/test/properties/texture.test.ts]: the fixture and the
      expected values of the test 'padding'.

    The classes [ElementGraph], [Root] and the Element classes are imported by
    [container.ts] from [./elements/index] and are not part of the sources at
    hand; so are the Reader and the Writer.  Their definitions below say so. *)

From Stdlib Require Import String Ascii Arith Lia.
From Stdlib.Strings Require Import Byte.
From stdpp Require Import base tactics option list strings relations.

Local Open Scope string_scope.
Local Open Scope list_scope.
Local Open Scope nat_scope.

(** ** Results of calls that may throw *)

Inductive Error : Type :=
| JsError (msg : string)          (* [throw new Error(msg)] *)
| InvalidLinkError                (* spec 4.1 / 7 *)
| UnknownImageFormatError         (* spec 4.3 / 7 *)
| UnsupportedPackingOptionError.  (* spec 7 *)

Inductive Result (A : Type) : Type :=
| Ok (a : A)
| Throw (e : Error).
Arguments Ok {A} a.
Arguments Throw {A} e.

(** ** The element graph *)

Module Graph.

(** An element handle: the identity of the object, not its content. *)
Definition ElemId := nat.

Inductive PropertyType : Type :=
| ROOT | SCENE | NODE | MESH | PRIMITIVE | MATERIAL | TEXTURE | ACCESSOR | BUFFER.

#[global] Instance PropertyType_eq_dec : EqDecision PropertyType.
Proof. solve_decision. Defined.

Record ElementData : Type := mkElementData {
  el_type : PropertyType;
  el_name : string;
}.

Record Link : Type := mkLink {
  link_owner : ElemId;
  link_name : string;
  link_target : ElemId;
}.

#[global] Instance Link_eq_dec : EqDecision Link.
Proof. solve_decision. Defined.

(** Modelled from the spec: class [ElementGraph] ([./elements/index], not in
    the sources).  Spec 2: the Graph "tracks every Element instance and the
    directed links between them".  Elements are kept in creation order; the
    identity of an Element is its position in that registry. *)
Record ElementGraph : Type := mkGraph {
  elements : list ElementData;
  links : list Link;
}.

(** [new ElementGraph()] *)
Definition empty : ElementGraph := {| elements := []; links := [] |}.

(** A computation on the graph that may throw. *)
Definition M (A : Type) : Type := ElementGraph → Result (A * ElementGraph).

Definition ret {A} (a : A) : M A := λ g, Ok (a, g).

Definition bind {A B} (m : M A) (k : A → M B) : M B :=
  λ g, match m g with
       | Ok (a, g') => k a g'
       | Throw e => Throw e
       end.

Definition has_element (g : ElementGraph) (e : ElemId) : bool :=
  bool_decide (e < length (elements g)).

Definition type_of (g : ElementGraph) (e : ElemId) : option PropertyType :=
  el_type <$> elements g !! e.

Definition name_of (g : ElementGraph) (e : ElemId) : option string :=
  el_name <$> elements g !! e.

(** Modelled from the spec: the constructor shared by the Element classes,
    [new Scene(graph, name)] and the like (not in the sources).  Spec 3:
    creation "auto-registers in Graph".  The new Element gets the next free
    identity. *)
Definition register (d : ElementData) (g : ElementGraph) : ElemId * ElementGraph :=
  (length (elements g), {| elements := elements g ++ [d]; links := links g |}).

Definition new_Element (t : PropertyType) (name : string) : M ElemId :=
  λ g, Ok (register (mkElementData t name) g).

(** Modelled from the spec: [ElementGraph.link] (not in the sources).
    Spec 4.1: "registers a directed edge; fails with InvalidLinkError if
    either endpoint is not part of this Graph". *)
Definition link (owner : ElemId) (relation : string) (target : ElemId) : M unit :=
  λ g, if has_element g owner && has_element g target
       then Ok (tt, {| elements := elements g;
                       links := links g ++ [mkLink owner relation target] |})
       else Throw InvalidLinkError.

(** Modelled from the spec: [ElementGraph.unlink] restricted to one owner and
    relation (not in the sources).  Spec 4.1: "removes a specific edge; no-op
    if absent". *)
Definition unlink_all (owner : ElemId) (relation : string) : M unit :=
  λ g, Ok (tt, {| elements := elements g;
                  links := filter (λ l, ¬ (link_owner l = owner ∧ link_name l = relation))
                                  (links g) |}).

(** Modelled from the spec: [listChildren] by relation (spec 4.1), in the
    order the links were made. *)
Definition listChildren (g : ElementGraph) (owner : ElemId) (relation : string)
  : list ElemId :=
  link_target <$> filter (λ l, link_owner l = owner ∧ link_name l = relation) (links g).

End Graph.

Import Graph.

Notation "'let!' x ':=' m 'in' k" := (Graph.bind m (λ x, k))
  (at level 10, x name, m at level 100, k at level 200, only parsing).

(** ** Root and Accessor, as far as [container.ts] calls them *)

Module Root.

Definition SCENES := "scenes".
Definition NODES := "nodes".
Definition MESHES := "meshes".
Definition MATERIALS := "materials".
Definition TEXTURES := "textures".
Definition ACCESSORS := "accessors".
Definition BUFFERS := "buffers".

Definition collections : list string :=
  [SCENES; NODES; MESHES; MATERIALS; TEXTURES; ACCESSORS; BUFFERS].

(** Modelled from the spec: [Root.addScene], [Root.addNode], ... (class
    [Root], not in the sources).  Spec 3: Root "owns ordered, deduplicated
    lists of every top-level Element type"; spec 3, Link: the Graph is the
    only record of which links exist.  Adding an Element already in the
    collection changes nothing. *)
Definition add (collection : string) (root e : ElemId) : M unit :=
  λ g, if bool_decide (e ∈ listChildren g root collection)
       then Ok (tt, g)
       else link root collection e g.

(** Modelled from the spec: [Root.listScenes()], [Root.listNodes()], ...
    (spec 6, "[listX()] accessors on Root"; not in the sources): the
    collection, in the order its Elements were added. *)
Definition list (collection : string) (g : ElementGraph) (root : ElemId) : list ElemId :=
  listChildren g root collection.

End Root.

Module Accessor.

Definition BUFFER_LINK := "buffer".

(** Modelled from the spec: [Accessor.setBuffer] (class [Accessor], not in
    the sources).  Spec 3: Elements are "mutated via setter methods that
    update Graph links"; a single-valued link is swapped, not duplicated.
    The setter returns the Accessor itself (spec 9, fluent API). *)
Definition setBuffer (accessor buffer : ElemId) : M ElemId :=
  let! _ := unlink_all accessor BUFFER_LINK in
  let! _ := link accessor BUFFER_LINK buffer in
  ret accessor.

(** Modelled from the spec: [Accessor.getBuffer()] (not in the sources): the
    target of the Accessor's buffer link, if it has one. *)
Definition getBuffer (g : ElementGraph) (accessor : ElemId) : option ElemId :=
  head (listChildren g accessor BUFFER_LINK).

End Accessor.

(** ** [container.ts] *)

Module Container.

(** [private graph: ElementGraph; private root: Root] *)
Record Container : Type := mkContainer {
  graph : ElementGraph;
  root : ElemId;
}.

(** A method of [Container]: runs on [this], may throw. *)
Definition Method (A : Type) : Type := Container → Result (A * Container).

(** A graph computation run on [this.graph]. *)
Definition on_graph {A} (m : ElemId → M A) : Method A :=
  λ this, match m (root this) (graph this) with
          | Ok (a, g') => Ok (a, {| graph := g'; root := root this |})
          | Throw e => Throw e
          end.

(** The field initialisers:
    [graph = new ElementGraph(); root = new Root(this.graph)]. *)
Definition new : Container :=
  let '(r, g) := register (mkElementData ROOT "") Graph.empty in
  {| graph := g; root := r |}.

(** [getRoot()] and [getGraph()] *)
Definition getRoot (this : Container) : ElemId := root this.
Definition getGraph (this : Container) : ElementGraph := graph this.

(** [clone(): Container { throw new Error('Not implemented.'); }] *)
Definition clone (this : Container) : Result Container :=
  Throw (JsError "Not implemented.").

Definition createScene (name : string) : Method ElemId :=
  on_graph (λ root,
    let! scene := new_Element SCENE name in
    let! _ := Root.add Root.SCENES root scene in
    ret scene).

Definition createNode (name : string) : Method ElemId :=
  on_graph (λ root,
    let! node := new_Element NODE name in
    let! _ := Root.add Root.NODES root node in
    ret node).

Definition createMesh (name : string) : Method ElemId :=
  on_graph (λ root,
    let! mesh := new_Element MESH name in
    let! _ := Root.add Root.MESHES root mesh in
    ret mesh).

(** The Primitive is constructed on [this.graph] and returned; no call on
    [this.root]. *)
Definition createPrimitive : Method ElemId :=
  on_graph (λ _,
    let! primitive := new_Element PRIMITIVE "" in
    ret primitive).

Definition createMaterial (name : string) : Method ElemId :=
  on_graph (λ root,
    let! material := new_Element MATERIAL name in
    let! _ := Root.add Root.MATERIALS root material in
    ret material).

Definition createTexture (name : string) : Method ElemId :=
  on_graph (λ root,
    let! texture := new_Element TEXTURE name in
    let! _ := Root.add Root.TEXTURES root texture in
    ret texture).

(** [new Accessor(this.graph, name).setBuffer(buffer)], then
    [this.root.addAccessor(accessor)]. *)
Definition createAccessor (name : string) (buffer : ElemId) : Method ElemId :=
  on_graph (λ root,
    let! a := new_Element ACCESSOR name in
    let! accessor := Accessor.setBuffer a buffer in
    let! _ := Root.add Root.ACCESSORS root accessor in
    ret accessor).

Definition createBuffer (name : string) : Method ElemId :=
  on_graph (λ root,
    let! buffer := new_Element BUFFER name in
    let! _ := Root.add Root.BUFFERS root buffer in
    ret buffer).

(** The identity the next Element created in [this] gets, and the container
    once an Element [d] was registered and the links [ls] were made. *)
Definition next (this : Container) : ElemId := length (elements (graph this)).

Definition grown (this : Container) (d : ElementData) (ls : list Link) : Container :=
  {| graph := {| elements := elements (graph this) ++ [d];
                 links := links (graph this) ++ ls |};
     root := root this |}.

(** The container of the tests once [doc.createBuffer()] has returned: the
    Root, and one Buffer in Root's collection of buffers. *)
Definition with_buffer : Container :=
  {| graph := {| elements := [mkElementData ROOT ""; mkElementData BUFFER ""];
                 links := [mkLink 0 Root.BUFFERS 1] |};
     root := 0 |}.

(** One call of a factory method, with its arguments. *)
Inductive FactoryCall : Type :=
| CreateScene (name : string)
| CreateNode (name : string)
| CreateMesh (name : string)
| CreatePrimitive
| CreateMaterial (name : string)
| CreateTexture (name : string)
| CreateAccessor (name : string) (buffer : ElemId)
| CreateBuffer (name : string).

Definition invoke (call : FactoryCall) : Method ElemId :=
  match call with
  | CreateScene name => createScene name
  | CreateNode name => createNode name
  | CreateMesh name => createMesh name
  | CreatePrimitive => createPrimitive
  | CreateMaterial name => createMaterial name
  | CreateTexture name => createTexture name
  | CreateAccessor name buffer => createAccessor name buffer
  | CreateBuffer name => createBuffer name
  end.

(** What a call is expected to produce: the type of the Element, its name,
    and the Root collection it lands in, if any. *)
Definition created_type (call : FactoryCall) : PropertyType :=
  match call with
  | CreateScene _ => SCENE
  | CreateNode _ => NODE
  | CreateMesh _ => MESH
  | CreatePrimitive => PRIMITIVE
  | CreateMaterial _ => MATERIAL
  | CreateTexture _ => TEXTURE
  | CreateAccessor _ _ => ACCESSOR
  | CreateBuffer _ => BUFFER
  end.

Definition created_name (call : FactoryCall) : string :=
  match call with
  | CreateScene n | CreateNode n | CreateMesh n | CreateMaterial n
  | CreateTexture n | CreateAccessor n _ | CreateBuffer n => n
  | CreatePrimitive => ""
  end.

Definition root_collection (call : FactoryCall) : option string :=
  match call with
  | CreateScene _ => Some Root.SCENES
  | CreateNode _ => Some Root.NODES
  | CreateMesh _ => Some Root.MESHES
  | CreatePrimitive => None
  | CreateMaterial _ => Some Root.MATERIALS
  | CreateTexture _ => Some Root.TEXTURES
  | CreateAccessor _ _ => Some Root.ACCESSORS
  | CreateBuffer _ => Some Root.BUFFERS
  end.

(** The Element arguments of a call are Elements of this container, of the
    declared type ([buffer: Buffer]). *)
Definition args_ok (this : Container) (call : FactoryCall) : Prop :=
  match call with
  | CreateAccessor _ buffer => type_of (graph this) buffer = Some BUFFER
  | _ => True
  end.

(** The state every container built by [new] and the factory methods is in:
    the root is a registered Root Element and links join registered
    Elements only. *)
Record wf (this : Container) : Prop := {
  wf_root : type_of (graph this) (root this) = Some ROOT;
  wf_links : ∀ l, l ∈ links (graph this) →
               has_element (graph this) (link_owner l) = true ∧
               has_element (graph this) (link_target l) = true;
}.

End Container.

(** ** Containers as callers build them *)

Module Built.
Import Container.

(** The Root collection the factory for Elements of type [t] adds to
    ([this.root.addScene] in [createScene], and so on); none for a Primitive
    ([createPrimitive] makes no call on [this.root]) and for the Root. *)
Definition collection_of (t : PropertyType) : option string :=
  match t with
  | SCENE => Some Root.SCENES
  | NODE => Some Root.NODES
  | MESH => Some Root.MESHES
  | MATERIAL => Some Root.MATERIALS
  | TEXTURE => Some Root.TEXTURES
  | ACCESSOR => Some Root.ACCESSORS
  | BUFFER => Some Root.BUFFERS
  | PRIMITIVE | ROOT => None
  end.

(** One factory call that returned, its Element arguments being Elements of
    the container of the declared type. *)
Inductive step : Container → Container → Prop :=
| step_invoke this call e this' :
    args_ok this call → invoke call this = Ok (e, this') → step this this'.

(** [later this this']: [this'] is [this] after any number of factory calls.
    [built this]: the container started as [new Container()]. *)
Definition later : Container → Container → Prop := rtc step.

Definition built (this : Container) : Prop := later new this.

(** The Elements of type [t] registered in [g], in creation order. *)
Definition elements_of_type (g : ElementGraph) (t : PropertyType) : list ElemId :=
  filter (λ e, type_of g e = Some t) (seq 0 (length (elements g))).

(** The two kinds of link the factories make: Root to a member of one of its
    collections, and an Accessor to its Buffer. *)
Definition root_link (this : Container) (l : Link) : Prop :=
  link_owner l = root this ∧
  ∃ t, collection_of t = Some (link_name l) ∧
       type_of (graph this) (link_target l) = Some t.

Definition buffer_link (this : Container) (l : Link) : Prop :=
  link_name l = Accessor.BUFFER_LINK ∧
  type_of (graph this) (link_owner l) = Some ACCESSOR ∧
  type_of (graph this) (link_target l) = Some BUFFER ∧
  link_target l < link_owner l.

(** The links a factory call makes, in order: [setBuffer] before
    [root.addAccessor] in [createAccessor], the one [root.addX] elsewhere,
    none in [createPrimitive]. *)
Definition added_links (this : Container) (call : FactoryCall) : list Link :=
  match call with
  | CreateAccessor _ buffer =>
      [mkLink (next this) Accessor.BUFFER_LINK buffer;
       mkLink (root this) Root.ACCESSORS (next this)]
  | _ => match root_collection call with
         | Some c => [mkLink (root this) c (next this)]
         | None => []
         end
  end.

(** The Element a factory call registers. *)
Definition created (call : FactoryCall) : ElementData :=
  mkElementData (created_type call) (created_name call).

(** What holds of every container a caller can build (proved below): the
    Root is Element 0 and the only Root; every link is one of the two kinds;
    each Root collection is the Elements of its type in creation order; and
    every Accessor has one Buffer. *)
Record inv (this : Container) : Prop := {
  inv_wf : wf this;
  inv_root : root this = 0;
  inv_one_root : ∀ x, type_of (graph this) x = Some ROOT → x = root this;
  inv_links : ∀ l, l ∈ links (graph this) → root_link this l ∨ buffer_link this l;
  inv_collections : ∀ t col, collection_of t = Some col →
    Root.list col (graph this) (root this) = elements_of_type (graph this) t;
  inv_buffer : ∀ a, type_of (graph this) a = Some ACCESSOR →
    ∃ b, listChildren (graph this) a Accessor.BUFFER_LINK = [b];
}.

(** The container of [with_buffer] once [createAccessor('POSITION', buffer)]
    has returned on it. *)
Definition with_accessor : Container :=
  grown with_buffer (created (CreateAccessor "POSITION" 1))
        (added_links with_buffer (CreateAccessor "POSITION" 1)).

End Built.

(** ** Textures and their MIME type *)

Abbreviation bytes := (list byte).

Module Texture.

(** A Texture as its setters leave it: [setImage], [setMimeType], [setURI].
    [mimeType] and [uri] are [None] until set. *)
Record Texture : Type := mkTexture {
  image : bytes;
  mimeType : option string;
  uri : option string;
}.

(** [new Uint8Array(n)]: [n] zero bytes. *)
Definition Uint8Array (n : nat) : bytes := replicate n x00.

Fixpoint starts_with (signature data : bytes) : bool :=
  match signature, data with
  | [], _ => true
  | _ :: _, [] => false
  | s :: signature', d :: data' => Byte.eqb s d && starts_with signature' data'
  end.

Definition PNG_SIGNATURE : bytes := [x89; x50; x4e; x47; x0d; x0a; x1a; x0a].
Definition JPEG_SIGNATURE : bytes := [xff; xd8; xff].
Definition RIFF_TAG : bytes := [x52; x49; x46; x46].
Definition WEBP_TAG : bytes := [x57; x45; x42; x50].

(** Modelled from the spec: the byte-signature tables of spec 4.3 step 5
    ("signature tables for at least PNG, JPEG, WebP"; the Writer is not in
    the sources).  The signatures are the formats' published magic numbers;
    a WebP file is a RIFF container tagged WEBP at offset 8. *)
Definition sniffMimeType (data : bytes) : option string :=
  if starts_with PNG_SIGNATURE data then Some "image/png"
  else if starts_with JPEG_SIGNATURE data then Some "image/jpeg"
  else if starts_with RIFF_TAG data && starts_with WEBP_TAG (drop 8 data)
       then Some "image/webp"
  else None.

(** The reading of spec 3 ("MIME type is inferred from byte signature if
    unset"): the explicit MIME type, else what the image bytes say. *)
Definition mimeTypeBySignature (t : Texture) : option string :=
  match mimeType t with
  | Some m => Some m
  | None => sniffMimeType (image t)
  end.

End Texture.

(** ** The Writer's packing of binary payloads *)

Module Writer.
Import Texture.

Record BufferView : Type := mkBufferView {
  buffer : nat;
  byteOffset : nat;
  byteLength : nat;
}.

Record ImageJSON : Type := mkImageJSON {
  img_bufferView : nat;
  img_mimeType : string;
}.

Record BufferJSON : Type := mkBufferJSON {
  buf_byteLength : nat;
}.

(** The number of zero bytes that bring [n] up to a multiple of 8. *)
Definition padding (n : nat) : nat := (8 - n mod 8) mod 8.

Definition pad (data : bytes) : bytes := data ++ replicate (padding (length data)) x00.

(** Modelled from the spec: one step of spec 4.3 step 4 (the Writer is not in
    the sources).  "Each payload segment's start offset is rounded up to the
    nearest multiple of 8 bytes (padding with zero bytes)"; the segment is
    recorded as [{bufferIndex, byteOffset, byteLength}]. *)
Definition pack_segment (bufferIndex : nat) (st : bytes * list BufferView) (segment : bytes)
  : bytes * list BufferView :=
  let start := pad st.1 in
  (start ++ segment,
   st.2 ++ [mkBufferView bufferIndex (length start) (length segment)]).

(** Modelled from the spec: spec 4.3 step 4 for one Buffer: the segments in
    element-index order; spec 8, alignment invariant: the last view plus
    padding gives the buffer's total length. *)
Definition pack_buffer (bufferIndex : nat) (segments : list bytes) : bytes * list BufferView :=
  let st := foldl (pack_segment bufferIndex) ([], []) segments in
  (pad st.1, st.2).

(** Where a view ends, and where the payload before view [i] ended (0 for
    the first view). *)
Definition view_end (v : BufferView) : nat := byteOffset v + byteLength v.

Definition end_before (views : list BufferView) (i : nat) : nat :=
  match i with
  | 0 => 0
  | S j => default 0 (view_end <$> views !! j)
  end.

(** The layout spec 4.3 step 4 and spec 8 (alignment invariant) ask of the
    bytes [data] and the [views] packed from [segments] into buffer
    [bufferIndex]: view [i] describes segment [i]; it starts at the first
    multiple of 8 at or after the end of the payload before it, the bytes in
    between being zero; the payload is found at its offset; and the buffer
    ends at the first multiple of 8 at or after the last payload, zero-filled. *)
Record packed (bufferIndex : nat) (segments : list bytes) (data : bytes)
    (views : list BufferView) : Prop := {
  packed_count : length views = length segments;
  packed_view : ∀ i segment, segments !! i = Some segment →
    ∃ v, views !! i = Some v ∧
         buffer v = bufferIndex ∧
         byteLength v = length segment ∧
         byteOffset v mod 8 = 0 ∧
         end_before views i ≤ byteOffset v < end_before views i + 8 ∧
         view_end v ≤ length data ∧
         take (length segment) (drop (byteOffset v) data) = segment ∧
         ∀ k, end_before views i ≤ k < byteOffset v → data !! k = Some x00;
  packed_total : length data mod 8 = 0 ∧
    end_before views (length segments) ≤ length data
      < end_before views (length segments) + 8;
  packed_tail : ∀ k, end_before views (length segments) ≤ k < length data →
    data !! k = Some x00;
}.

(** The part of a Document the binary packing reads: the Buffers (by name),
    the Accessors' arrays as bytes, and the Textures. *)
Record Document : Type := mkDocument {
  buffers : list string;
  accessors : list bytes;
  textures : list Texture;
}.

Record JSONDocument : Type := mkJSONDocument {
  json_images : list ImageJSON;
  json_bufferViews : list BufferView;
  json_buffers : list BufferJSON;
  binary : bytes;
}.

(** Modelled from the spec: spec 4.3 step 5: the explicit MIME type, else the
    one sniffed from the image bytes, else [UnknownImageFormatError]. *)
Definition imageMimeType (t : Texture) : Result string :=
  match mimeTypeBySignature t with
  | Some m => Ok m
  | None => Throw UnknownImageFormatError
  end.

Fixpoint imageEntries (firstView : nat) (ts : list Texture) : Result (list ImageJSON) :=
  match ts with
  | [] => Ok []
  | t :: ts' =>
      match imageMimeType t, imageEntries (S firstView) ts' with
      | Ok m, Ok rest => Ok (mkImageJSON firstView m :: rest)
      | Throw e, _ => Throw e
      | _, Throw e => Throw e
      end
  end.

(** Modelled from the spec: [writeJSON(doc, { format: Format.GLB })] as far as
    images, bufferViews and buffers go (spec 4.3 steps 4, 5 and 7; spec 6,
    binary container: one chunk with all packed bytes).  Every Accessor
    and Texture payload goes to buffer 0, accessors first, each list in
    element-index order; the view of the [i]-th payload is bufferView [i].
    A Document with no Buffer, or with several Buffers, does not fit the
    single chunk (spec 7: the requested option is "incompatible with document
    contents"). *)
Definition writeGLB (doc : Document) : Result JSONDocument :=
  match buffers doc with
  | [_] =>
      match imageEntries (length (accessors doc)) (textures doc) with
      | Ok images =>
          let packed := pack_buffer 0 (accessors doc ++ (image <$> textures doc)) in
          Ok {| json_images := images;
                json_bufferViews := packed.2;
                json_buffers := [mkBufferJSON (length packed.1)];
                binary := packed.1 |}
      | Throw e => Throw e
      end
  | _ => Throw UnsupportedPackingOptionError
  end.

(** The fixture of the test 'texture | padding': one Buffer, three Textures
    of 17, 21 and 20 bytes with MIME type [image/png]. *)
Definition test_padding_document : Document :=
  {| buffers := [""];
     accessors := [];
     textures := [mkTexture (Uint8Array 17) (Some "image/png") None;
                  mkTexture (Uint8Array 21) (Some "image/png") None;
                  mkTexture (Uint8Array 20) (Some "image/png") None] |}.

End Writer.

(** * Properties of [container.ts] *)

Section ContainerFacts.
Import Container.

Implicit Types (g : ElementGraph) (e : ElemId) (this : Container) (l : Link).

Lemma has_element_lookup g e : has_element g e = true ↔ is_Some (elements g !! e).
Proof.
  unfold has_element. rewrite bool_decide_eq_true. symmetry. apply lookup_lt_is_Some.
Qed.

Lemma type_of_has_element g e t : type_of g e = Some t → has_element g e = true.
Proof.
  unfold type_of. intros H. apply has_element_lookup.
  destruct (elements g !! e); [eauto | discriminate].
Qed.

Lemma register_fresh d g : has_element g (register d g).1 = false.
Proof. unfold has_element, register; simpl. apply bool_decide_eq_false. lia. Qed.

Lemma register_keeps_element d g e :
  has_element g e = true → has_element (register d g).2 e = true.
Proof.
  unfold has_element, register; simpl. rewrite !bool_decide_eq_true, length_app. lia.
Qed.

Lemma register_has_new d g : has_element (register d g).2 (register d g).1 = true.
Proof.
  unfold has_element, register; simpl. rewrite bool_decide_eq_true, length_app; simpl. lia.
Qed.

(** Links into an Element of a well-formed container never reach an identity
    that is not registered yet. *)
Lemma wf_not_child this e owner collection :
  wf this → has_element (graph this) e = false →
  e ∉ listChildren (graph this) owner collection.
Proof.
  intros Hwf Hnew Hin. unfold listChildren in Hin.
  apply list_elem_of_fmap in Hin as (l & -> & Hl).
  apply list_elem_of_filter in Hl as [_ Hl].
  destruct (wf_links _ Hwf l Hl) as [_ Ht]. congruence.
Qed.

Lemma listChildren_register d g owner collection :
  listChildren (register d g).2 owner collection = listChildren g owner collection.
Proof. reflexivity. Qed.

End ContainerFacts.

Section FactoryRuns.
Import Container.

Implicit Types (g : ElementGraph) (e : ElemId) (this : Container) (l : Link).

(** The shape shared by the seven factories that attach to Root. *)
Lemma run_attached this t name collection :
  wf this →
  on_graph (λ root,
    let! e := new_Element t name in
    let! _ := Root.add collection root e in
    ret e) this
  = Ok (next this,
        grown this (mkElementData t name) [mkLink (root this) collection (next this)]).
Proof.
  intros Hwf. unfold on_graph, Graph.bind, new_Element, Root.add, ret.
  set (d := mkElementData t name).
  pose proof (wf_not_child this (register d (graph this)).1 (root this) collection
                Hwf (register_fresh d (graph this))) as Hnot.
  destruct (register d (graph this)) as [e g1] eqn:Hreg.
  assert (listChildren g1 (root this) collection
          = listChildren (graph this) (root this) collection) as Hsame.
  { replace g1 with (register d (graph this)).2 by (by rewrite Hreg).
    apply listChildren_register. }
  rewrite Hsame. cbn [fst] in Hnot.
  rewrite bool_decide_eq_false_2 by exact Hnot.
  unfold link.
  replace (has_element g1 (root this)) with true; cycle 1.
  { symmetry. replace g1 with (register d (graph this)).2 by (by rewrite Hreg).
    apply register_keeps_element, (type_of_has_element _ _ ROOT), Hwf. }
  replace (has_element g1 e) with true; cycle 1.
  { symmetry. pose proof (register_has_new d (graph this)) as H.
    by rewrite Hreg in H. }
  unfold register in Hreg. injection Hreg as <- <-. reflexivity.
Qed.

Lemma run_createPrimitive this :
  createPrimitive this = Ok (next this, grown this (mkElementData PRIMITIVE "") []).
Proof.
  unfold createPrimitive, on_graph, Graph.bind, new_Element, ret, register, grown; simpl.
  by rewrite app_nil_r.
Qed.

Lemma filter_keeps_all {A} (P : A → Prop) `{!∀ x, Decision (P x)} (xs : list A) :
  Forall P xs → filter P xs = xs.
Proof.
  induction 1 as [|x xs Hx _ IH]; [done|].
  rewrite filter_cons_True by done. by rewrite IH.
Qed.

Lemma filter_keeps_none {A} (P : A → Prop) `{!∀ x, Decision (P x)} (xs : list A) :
  Forall (λ x, ¬ P x) xs → filter P xs = [].
Proof.
  induction 1 as [|x xs Hx _ IH]; [done|].
  by rewrite filter_cons_False.
Qed.

Lemma wf_no_children_of_new this e relation :
  wf this → has_element (graph this) e = false →
  listChildren (graph this) e relation = [].
Proof.
  intros Hwf Hnew. unfold listChildren.
  rewrite filter_keeps_none; [done|]. apply Forall_forall. intros l Hl [Ho _].
  destruct (wf_links _ Hwf l Hl) as [Hreg _]. congruence.
Qed.

Lemma wf_no_link_from_new this e relation :
  wf this → has_element (graph this) e = false →
  filter (λ l, ¬ (link_owner l = e ∧ link_name l = relation)) (links (graph this))
  = links (graph this).
Proof.
  intros Hwf Hnew. apply filter_keeps_all, Forall_forall. intros l Hl [Ho _].
  destruct (wf_links _ Hwf l Hl) as [Hreg _]. congruence.
Qed.

Lemma run_createAccessor this name buffer :
  wf this → has_element (graph this) buffer = true →
  createAccessor name buffer this
  = Ok (next this,
        grown this (mkElementData ACCESSOR name)
          [mkLink (next this) Accessor.BUFFER_LINK buffer;
           mkLink (root this) Root.ACCESSORS (next this)]).
Proof.
  intros Hwf Hbuf.
  unfold createAccessor, on_graph, Graph.bind, new_Element, Accessor.setBuffer,
    Graph.bind, unlink_all, Root.add, ret.
  set (d := mkElementData ACCESSOR name).
  pose proof (register_fresh d (graph this)) as Hfresh.
  pose proof (register_has_new d (graph this)) as Hnew.
  pose proof (register_keeps_element d _ _ Hbuf) as Hbuf'.
  pose proof (register_keeps_element d _ _
                (type_of_has_element _ _ _ (wf_root _ Hwf))) as Hroot'.
  cbn [register fst snd elements links] in *.
  rewrite (wf_no_link_from_new this _ Accessor.BUFFER_LINK Hwf Hfresh).
  unfold link at 1. cbn [elements links].
  unfold has_element in *. cbn [elements] in *.
  rewrite Hnew, Hbuf'. cbn [andb].
  rewrite bool_decide_eq_false_2.
  - unfold link, has_element. cbn [elements links]. rewrite Hroot', Hnew. cbn [andb].
    unfold grown, next. by rewrite <- app_assoc.
  - unfold listChildren. cbn [links]. rewrite filter_app, fmap_app.
    intros Hin. apply elem_of_app in Hin as [Hin|Hin].
    + apply (wf_not_child this (length (elements (graph this))) (root this) Root.ACCESSORS Hwf).
      * unfold has_element. exact Hfresh.
      * exact Hin.
    + rewrite filter_cons, filter_nil in Hin.
      destruct (decide _) as [[Ho Hn]|]; [discriminate Hn | by apply elem_of_nil in Hin].
Qed.

End FactoryRuns.

Section FactoryTheorems.
Import Container.

Implicit Types (g : ElementGraph) (e : ElemId) (this : Container) (l : Link).

(** Every factory call on a well-formed container returns, and what it
    returns is the next identity in a container grown by one Element. *)
Lemma run_invoke this call :
  wf this → args_ok this call →
  ∃ ls,
    invoke call this
    = Ok (next this, grown this (mkElementData (created_type call) (created_name call)) ls) ∧
    ls = match call with
         | CreateAccessor _ buffer =>
             [mkLink (next this) Accessor.BUFFER_LINK buffer;
              mkLink (root this) Root.ACCESSORS (next this)]
         | _ => match root_collection call with
                | Some c => [mkLink (root this) c (next this)]
                | None => []
                end
         end.
Proof.
  intros Hwf Hargs.
  destruct call; simpl; eexists; split; try reflexivity;
    try (by apply run_attached); try apply run_createPrimitive.
  apply run_createAccessor; [done|]. by apply (type_of_has_element _ _ BUFFER).
Qed.

Lemma next_fresh this : has_element (graph this) (next this) = false.
Proof. unfold has_element, next. apply bool_decide_eq_false. lia. Qed.

Lemma grown_type this d ls : type_of (graph (grown this d ls)) (next this) = Some (el_type d).
Proof.
  unfold type_of, grown, next; simpl. rewrite lookup_app_r by lia. by rewrite Nat.sub_diag.
Qed.

Lemma grown_name this d ls : name_of (graph (grown this d ls)) (next this) = Some (el_name d).
Proof.
  unfold name_of, grown, next; simpl. rewrite lookup_app_r by lia. by rewrite Nat.sub_diag.
Qed.

Lemma grown_children this d ls owner collection :
  listChildren (graph (grown this d ls)) owner collection =
  listChildren (graph this) owner collection ++
  (link_target <$> filter (λ l, link_owner l = owner ∧ link_name l = collection) ls).
Proof. unfold listChildren, grown; simpl. by rewrite filter_app, fmap_app. Qed.

Lemma wf_root_not_next this : wf this → root this ≠ next this.
Proof.
  intros Hwf Heq. pose proof (type_of_has_element _ _ _ (wf_root _ Hwf)) as H.
  rewrite Heq, next_fresh in H. discriminate.
Qed.

Lemma attach_children r c c' e :
  link_target <$> filter (λ l, link_owner l = r ∧ link_name l = c') [mkLink r c e]
  = if decide (Some c = Some c') then [e] else [].
Proof.
  rewrite filter_cons, filter_nil. cbn [link_owner link_name].
  destruct (decide (r = r ∧ c = c')) as [[_ ->]|Hn].
  - by rewrite decide_True.
  - rewrite decide_False; [done|]. intros [= ->]. by apply Hn.
Qed.

(** The invariant: a factory call leaves the container well-formed. *)
Lemma invoke_preserves_wf this call e this' :
  wf this → args_ok this call → invoke call this = Ok (e, this') → wf this'.
Proof.
  intros Hwf Hargs Hrun.
  destruct (run_invoke this call Hwf Hargs) as (ls & Hrun' & Hls).
  rewrite Hrun in Hrun'. injection Hrun' as -> ->.
  assert (∀ x, has_element (graph this) x = true ∨ x = next this →
               has_element (graph (grown this
                 (mkElementData (created_type call) (created_name call)) ls)) x = true)
    as Hreg.
  { intros x Hx. unfold has_element, grown, next in *; simpl.
    rewrite bool_decide_eq_true, length_app; simpl.
    destruct Hx as [Hx| ->]; [apply bool_decide_eq_true in Hx|]; lia. }
  pose proof (type_of_has_element _ _ _ (wf_root _ Hwf)) as Hroot.
  split.
  - unfold type_of, grown; simpl.
    pose proof (wf_root _ Hwf) as Ht. unfold type_of in Ht.
    destruct (elements (graph this) !! root this) eqn:E; [|discriminate].
    by rewrite (lookup_app_l_Some _ _ _ _ E).
  - intros l Hl. unfold grown in Hl; simpl in Hl.
    apply elem_of_app in Hl as [Hl|Hl].
    + destruct (wf_links _ Hwf l Hl). split; apply Hreg; auto.
    + subst ls. destruct call; simpl in Hl;
        repeat (apply elem_of_cons in Hl as [->|Hl]);
        try (by apply elem_of_nil in Hl); simpl; split; apply Hreg; auto.
      left. by apply (type_of_has_element _ _ BUFFER).
Qed.

Lemma wf_new : wf new.
Proof.
  split; [reflexivity|]. intros l Hl. by apply elem_of_nil in Hl.
Qed.

(** C1: [Container.clone] does not return a copy: on every container it throws
    [Error('Not implemented.')], though its documentation says it clones the
    container and its graph. *)
Theorem clone_not_implemented this : clone this = Throw (JsError "Not implemented.").
Proof. reflexivity. Qed.

(** C9: on a container in a well-formed state, every factory method returns; the
    Element it returns is new, is registered in the container's graph with
    the type of the method, and is appended to the Root collection of that
    type, the other collections staying as they were.  [createPrimitive]
    registers and returns its Primitive, appends it to no Root collection and
    leaves it the target of no link. *)
Theorem factory_registers_and_attaches this call :
  wf this → args_ok this call →
  ∃ e this',
    invoke call this = Ok (e, this') ∧
    has_element (graph this) e = false ∧
    type_of (graph this') e = Some (created_type call) ∧
    name_of (graph this') e = Some (created_name call) ∧
    (∀ x t, type_of (graph this) x = Some t → type_of (graph this') x = Some t) ∧
    (∀ collection,
       Root.list collection (graph this') (root this') =
       Root.list collection (graph this) (root this) ++
       (if decide (root_collection call = Some collection) then [e] else [])) ∧
    (root_collection call = None →
       ∀ l, l ∈ links (graph this') → link_target l ≠ e).
Proof.
  intros Hwf Hargs.
  destruct (run_invoke this call Hwf Hargs) as (ls & Hrun & Hls).
  eexists _, _. split; [exact Hrun|].
  split; [apply next_fresh|]. split; [apply grown_type|].
  split; [apply grown_name|].
  split; [|split].
  - intros x t Ht. unfold type_of, grown in *; simpl.
    destruct (elements (graph this) !! x) eqn:E; [|discriminate].
    by rewrite (lookup_app_l_Some _ _ _ _ E).
  - intros collection. unfold Root.list. rewrite grown_children. f_equal.
    pose proof (wf_root_not_next this Hwf) as Hne.
    subst ls. destruct call; cbn [root_collection];
      try apply attach_children; try (by rewrite decide_False).
    rewrite filter_cons_False by (intros [Ho _]; cbn in Ho; congruence).
    apply attach_children.
  - intros Hnone l Hl. destruct call; try discriminate. simpl in Hls. subst ls.
    unfold grown in Hl; simpl in Hl. rewrite app_nil_r in Hl.
    destruct (wf_links _ Hwf l Hl) as [_ Ht]. intros Heq.
    rewrite Heq, next_fresh in Ht. discriminate.
Qed.

End FactoryTheorems.

Section AccessorLink.
Import Container.

Implicit Types (g : ElementGraph) (e : ElemId) (this : Container) (l : Link).

(** C10: [createAccessor] takes a Buffer of the container, and the Accessor it
    returns is linked to that Buffer in the state the call returns, its only
    outgoing link.  Every other factory call, on any well-formed container
    (one with no Buffer, like [new], included), makes no link whose target
    was there before the call: each link it adds points at the new Element. *)
Theorem createAccessor_links_buffer this :
  wf this →
  (∀ name buffer,
     type_of (graph this) buffer = Some BUFFER →
     ∃ accessor this',
       createAccessor name buffer this = Ok (accessor, this') ∧
       Accessor.getBuffer (graph this') accessor = Some buffer ∧
       (∀ l, l ∈ links (graph this') → link_owner l = accessor →
             l = mkLink accessor Accessor.BUFFER_LINK buffer) ∧
       has_element (graph this) buffer = true) ∧
  (∀ call e this',
     (∀ n b, call ≠ CreateAccessor n b) →
     invoke call this = Ok (e, this') →
     ∀ l, l ∈ links (graph this') → l ∉ links (graph this) →
          link_target l = e ∧ has_element (graph this) (link_target l) = false).
Proof.
  intros Hwf.
  pose proof (wf_root_not_next this Hwf) as Hne.
  split.
  - intros name buffer Hbuf.
    pose proof (type_of_has_element _ _ _ Hbuf) as Hreg.
    eexists _, _. split; [by apply run_createAccessor|].
    split; [|split; [|done]].
    + unfold Accessor.getBuffer. rewrite grown_children.
      rewrite (wf_no_children_of_new this _ _ Hwf (next_fresh this)).
      rewrite filter_cons_True by done.
      rewrite filter_cons_False by (intros [Ho _]; simpl in Ho; congruence).
      reflexivity.
    + intros l Hl Ho. unfold grown in Hl; simpl in Hl.
      apply elem_of_app in Hl as [Hl|Hl].
      * destruct (wf_links _ Hwf l Hl) as [Hr _].
        rewrite Ho, next_fresh in Hr. discriminate.
      * apply elem_of_cons in Hl as [->|Hl]; [done|].
        apply elem_of_cons in Hl as [->|Hl]; [simpl in Ho; congruence|].
        by apply elem_of_nil in Hl.
  - intros call e this' Hcall Hrun l Hl Hold.
    assert (args_ok this call) as Hargs.
    { destruct call as [| | | | | |n b|]; try exact I. by destruct (Hcall n b). }
    destruct (run_invoke this call Hwf Hargs) as (ls & Hrun' & Hls).
    rewrite Hrun in Hrun'. injection Hrun' as -> ->.
    unfold grown in Hl; simpl in Hl.
    apply elem_of_app in Hl as [Hl|Hl]; [done|].
    subst ls. destruct call as [| | | | | |n b|]; simpl in Hl;
      try (by apply elem_of_nil in Hl);
      try (by destruct (Hcall n b));
      apply elem_of_cons in Hl as [->|Hl]; try (by apply elem_of_nil in Hl);
      simpl; (split; [reflexivity | apply next_fresh]).
Qed.

End AccessorLink.

Section ContainerWitnesses.
Import Container.

Lemma with_buffer_created : createBuffer "" new = Ok (1, with_buffer).
Proof. reflexivity. Qed.

Lemma wf_with_buffer : wf with_buffer.
Proof. exact (invoke_preserves_wf new (CreateBuffer "") 1 with_buffer wf_new I eq_refl). Qed.

Lemma factory_registers_and_attaches_witness :
  wf with_buffer ∧
  args_ok with_buffer (CreateAccessor "POSITION" 1) ∧
  ∃ e this',
    invoke (CreateAccessor "POSITION" 1) with_buffer = Ok (e, this') ∧
    type_of (graph this') e = Some ACCESSOR ∧
    Root.list Root.ACCESSORS (graph this') (root this') = [e] ∧
    Root.list Root.BUFFERS (graph this') (root this') = [1].
Proof.
  split; [exact wf_with_buffer|]. split; [reflexivity|].
  destruct (factory_registers_and_attaches with_buffer (CreateAccessor "POSITION" 1)
              wf_with_buffer eq_refl)
    as (e & this' & Hrun & _ & Htype & _ & _ & Hlist & _).
  exists e, this'. split; [exact Hrun|]. split; [exact Htype|].
  split; rewrite Hlist; reflexivity.
Defined.

Lemma createAccessor_links_buffer_witness :
  (wf with_buffer ∧
   type_of (graph with_buffer) 1 = Some BUFFER ∧
   ∃ accessor this',
     createAccessor "POSITION" 1 with_buffer = Ok (accessor, this') ∧
     Accessor.getBuffer (graph this') accessor = Some 1) ∧
  (wf new ∧
   ∃ e this',
     invoke (CreateScene "scene") new = Ok (e, this') ∧
     ∀ l, l ∈ links (graph this') → l ∉ links (graph new) → link_target l = e).
Proof.
  split.
  - split; [exact wf_with_buffer|]. split; [reflexivity|].
    destruct (createAccessor_links_buffer with_buffer wf_with_buffer) as [Hacc _].
    destruct (Hacc "POSITION" 1 eq_refl) as (accessor & this' & Hrun & Hbuf & _).
    exists accessor, this'. split; [exact Hrun | exact Hbuf].
  - split; [exact wf_new|].
    destruct (createAccessor_links_buffer new wf_new) as [_ Hothers].
    eexists _, _. split; [reflexivity|].
    intros l Hl Hold.
    exact (proj1 (Hothers (CreateScene "scene") _ _
                    ltac:(intros n b; discriminate) eq_refl l Hl Hold)).
Defined.

End ContainerWitnesses.

(** * Properties of the packing *)

Section Packing.
Import Texture Writer.

Implicit Types (data segment : bytes) (segments : list bytes) (views : list BufferView).

Lemma padding_lt n : padding n < 8.
Proof. unfold padding. apply Nat.mod_upper_bound. lia. Qed.

Lemma padding_aligns n : (n + padding n) mod 8 = 0.
Proof.
  unfold padding.
  pose proof (Nat.div_mod_eq n 8) as Hn.
  pose proof (Nat.mod_upper_bound n 8 ltac:(lia)) as Hlt.
  destruct (decide (n mod 8 = 0)) as [Hz|Hnz].
  - rewrite Hz. simpl. rewrite Nat.add_0_r. exact Hz.
  - rewrite (Nat.mod_small (8 - n mod 8)) by lia.
    replace (n + (8 - n mod 8)) with ((n / 8 + 1) * 8) by lia.
    apply Nat.Div0.mod_mul.
Qed.

Lemma length_pad data : length (pad data) = length data + padding (length data).
Proof. unfold pad. by rewrite length_app, length_replicate. Qed.

Lemma pad_lookup_old data k : k < length data → pad data !! k = data !! k.
Proof. intros Hk. unfold pad. by rewrite lookup_app_l. Qed.

Lemma pad_lookup_new data k :
  length data ≤ k < length (pad data) → pad data !! k = Some x00.
Proof.
  rewrite length_pad. intros Hk. unfold pad. rewrite lookup_app_r by lia.
  apply lookup_replicate_2. lia.
Qed.

Lemma take_drop_app_within {A} (xs ys : list A) o n :
  o + n ≤ length xs → take n (drop o (xs ++ ys)) = take n (drop o xs).
Proof.
  intros H. rewrite drop_app_le by lia. rewrite take_app_le; [done|].
  rewrite length_drop. lia.
Qed.

Lemma end_before_app views v i :
  i ≤ length views → end_before (views ++ [v]) i = end_before views i.
Proof.
  destruct i as [|j]; [done|]. intros Hj. simpl. by rewrite lookup_app_l by lia.
Qed.

Lemma end_before_last views v : end_before (views ++ [v]) (S (length views)) = view_end v.
Proof. simpl. rewrite lookup_app_r by lia. by rewrite Nat.sub_diag. Qed.

(** The state of the fold after [segments]: everything [packed] asks of the
    views so far, with the data ending where the last payload ends. *)
Lemma fold_pack_segment b segments :
  let st := foldl (pack_segment b) ([], []) segments in
  length st.2 = length segments ∧
  length st.1 = end_before st.2 (length segments) ∧
  ∀ i segment, segments !! i = Some segment →
    ∃ v, st.2 !! i = Some v ∧
         buffer v = b ∧
         byteLength v = length segment ∧
         byteOffset v mod 8 = 0 ∧
         end_before st.2 i ≤ byteOffset v < end_before st.2 i + 8 ∧
         view_end v ≤ length st.1 ∧
         take (length segment) (drop (byteOffset v) st.1) = segment ∧
         ∀ k, end_before st.2 i ≤ k < byteOffset v → st.1 !! k = Some x00.
Proof.
  induction segments as [|s segments IH] using rev_ind.
  - simpl. split; [done|]. split; [done|]. intros i segment Hi. by destruct i.
  - rewrite foldl_app. cbn [foldl].
    destruct (foldl (pack_segment b) ([], []) segments) as [data views].
    cbn [fst snd] in IH. destruct IH as (Hcount & Hend & Hviews).
    unfold pack_segment. cbn [fst snd].
    rewrite !length_app. cbn [length]. rewrite <- Hcount.
    split; [lia|]. split.
    { replace (length views + 1) with (S (length views)) by lia.
      rewrite end_before_last. unfold view_end. simpl. lia. }
    intros i segment Hi.
    destruct (decide (i < length segments)) as [Hlt|Hge].
    + rewrite lookup_app_l in Hi by done.
      destruct (Hviews i segment Hi) as (v & Hv & Hb & Hlen & Hal & Hoff & Hin & Hpay & Hgap).
      exists v. rewrite lookup_app_l by lia.
      rewrite end_before_app by lia.
      repeat split; try done; try lia.
      * rewrite length_pad. lia.
      * unfold pad. rewrite <- app_assoc. rewrite take_drop_app_within; [done|].
        unfold view_end in Hin. lia.
      * intros k Hk. unfold pad. rewrite <- app_assoc.
        rewrite lookup_app_l by (unfold view_end in Hin; lia). by apply Hgap.
    + assert (i = length segments) as ->.
      { apply lookup_lt_Some in Hi. rewrite length_app in Hi. simpl in Hi. lia. }
      rewrite lookup_app_r in Hi by lia. rewrite Nat.sub_diag in Hi.
      injection Hi as ->.
      eexists. rewrite lookup_app_r by lia. rewrite Hcount, Nat.sub_diag.
      split; [reflexivity|]. cbn [buffer byteLength byteOffset view_end].
      rewrite end_before_app by lia. rewrite <- Hend.
      rewrite length_pad. pose proof (padding_lt (length data)).
      repeat split; try done; try lia.
      * apply padding_aligns.
      * rewrite <- length_pad. rewrite drop_app_length. apply firstn_all.
      * intros k Hk. rewrite lookup_app_l by (rewrite length_pad; lia).
        apply pad_lookup_new. rewrite length_pad. lia.
Qed.

Lemma pack_buffer_packed b segments :
  packed b segments (pack_buffer b segments).1 (pack_buffer b segments).2.
Proof.
  unfold pack_buffer. pose proof (fold_pack_segment b segments) as H.
  destruct (foldl (pack_segment b) ([], []) segments) as [data views].
  simpl in *. destruct H as (Hcount & Hend & Hviews).
  pose proof (padding_lt (length data)).
  split.
  - done.
  - intros i segment Hi.
    destruct (Hviews i segment Hi) as (v & Hv & Hb & Hlen & Hal & Hoff & Hin & Hpay & Hgap).
    exists v. repeat split; try done; try lia.
    + rewrite length_pad. lia.
    + unfold pad. rewrite take_drop_app_within; [done|]. unfold view_end in Hin. lia.
    + intros k Hk. rewrite pad_lookup_old; [by apply Hgap|]. unfold view_end in Hin. lia.
  - rewrite length_pad, <- Hend. split; [apply padding_aligns | lia].
  - intros k Hk. apply pad_lookup_new. lia.
Qed.

End Packing.

Section PackingTheorems.
Import Texture Writer.

Lemma writeGLB_packs doc j :
  writeGLB doc = Ok j →
  (binary j, json_bufferViews j)
    = pack_buffer 0 (accessors doc ++ (image <$> textures doc)) ∧
  json_buffers j = [mkBufferJSON (length (binary j))].
Proof.
  unfold writeGLB. intros H.
  destruct (buffers doc) as [|? [|? ?]]; try discriminate.
  destruct (imageEntries _ _); [|discriminate].
  injection H as <-. cbn [binary json_bufferViews json_buffers].
  split; reflexivity.
Qed.

(** C2: written as a binary container, the Document of the test
    'texture | padding' (one Buffer, three [image/png] Textures of 17, 21 and
    20 bytes) gets the bufferViews [{0,0,17}], [{0,24,21}], [{0,48,20}] and one
    buffer of byteLength 72.  In general the views and bytes packed from any
    list of payload segments are laid out as [packed] says: every segment
    starts at the first multiple of 8 at or after the end of the one before,
    the bytes in between are zero, and so is the fill at the end of the
    buffer; this holds of every Document the Writer returns a result for. *)
Theorem writer_pads_segments_to_8 :
  (∃ j, writeGLB test_padding_document = Ok j ∧
        json_bufferViews j
          = [mkBufferView 0 0 17; mkBufferView 0 24 21; mkBufferView 0 48 20] ∧
        json_buffers j = [mkBufferJSON 72] ∧
        json_images j
          = [mkImageJSON 0 "image/png"; mkImageJSON 1 "image/png";
             mkImageJSON 2 "image/png"]) ∧
  (∀ b segments,
     packed b segments (pack_buffer b segments).1 (pack_buffer b segments).2) ∧
  (∀ doc j, writeGLB doc = Ok j →
     packed 0 (accessors doc ++ (image <$> textures doc))
            (binary j) (json_bufferViews j) ∧
     json_buffers j = [mkBufferJSON (length (binary j))]).
Proof.
  split; [|split].
  - eexists. split; [vm_compute; reflexivity|]. by vm_compute.
  - apply pack_buffer_packed.
  - intros doc j Hw. destruct (writeGLB_packs doc j Hw) as [Hp Hb].
    split; [|exact Hb].
    pose proof (pack_buffer_packed 0 (accessors doc ++ (image <$> textures doc))) as H.
    by rewrite <- Hp in H.
Qed.

Lemma writer_pads_segments_to_8_witness :
  ∃ j, writeGLB test_padding_document = Ok j ∧
       packed 0 (image <$> textures test_padding_document)
              (binary j) (json_bufferViews j) ∧
       length (binary j) = 72.
Proof.
  destruct writer_pads_segments_to_8 as (_ & _ & H).
  eexists. split; [vm_compute; reflexivity|].
  split; [|by vm_compute].
  apply (H test_padding_document). vm_compute. reflexivity.
Defined.

End PackingTheorems.


(** * Containers built by factory calls *)

Section BuiltFacts.
Import Container Built.

Implicit Types (g : ElementGraph) (e x : ElemId) (this : Container) (l : Link)
  (d : ElementData) (t : PropertyType).

Lemma grown_type_old this d ls x :
  has_element (graph this) x = true →
  type_of (graph (grown this d ls)) x = type_of (graph this) x.
Proof.
  intros Hx. unfold type_of, grown; simpl.
  apply bool_decide_eq_true in Hx. by rewrite lookup_app_l.
Qed.

Lemma grown_name_old this d ls x :
  has_element (graph this) x = true →
  name_of (graph (grown this d ls)) x = name_of (graph this) x.
Proof.
  intros Hx. unfold name_of, grown; simpl.
  apply bool_decide_eq_true in Hx. by rewrite lookup_app_l.
Qed.

Lemma grown_type_keeps this d ls x t :
  type_of (graph this) x = Some t → type_of (graph (grown this d ls)) x = Some t.
Proof.
  intros H. rewrite grown_type_old; [done|]. by apply (type_of_has_element _ _ t).
Qed.

Lemma grown_type_inv this d ls x t :
  type_of (graph (grown this d ls)) x = Some t →
  type_of (graph this) x = Some t ∨ (x = next this ∧ t = el_type d).
Proof.
  intros H. destruct (decide (x < next this)) as [Hlt|Hge].
  - left. rewrite grown_type_old in H; [done|]. by apply bool_decide_eq_true.
  - right. unfold type_of, grown, next in *; simpl in *.
    rewrite lookup_app_r in H by lia.
    destruct (x - length (elements (graph this))) as [|k] eqn:E; simpl in H.
    + split; [lia | congruence].
    + by destruct k.
Qed.

Lemma filter_agree {A} (P Q : A → Prop) `{!∀ a, Decision (P a)} `{!∀ a, Decision (Q a)}
    (xs : list A) :
  (∀ a, a ∈ xs → (P a ↔ Q a)) → filter P xs = filter Q xs.
Proof.
  induction xs as [|a xs IH]; intros Hall; [done|].
  rewrite !filter_cons.
  destruct (decide (P a)) as [HP|HP], (decide (Q a)) as [HQ|HQ].
  - f_equal. apply IH. intros y Hy. apply Hall. by right.
  - destruct HQ. apply Hall; [by left | done].
  - destruct HP. apply Hall; [by left | done].
  - apply IH. intros y Hy. apply Hall. by right.
Qed.

Lemma elements_of_type_grown this d ls t :
  elements_of_type (graph (grown this d ls)) t =
  elements_of_type (graph this) t ++ (if decide (el_type d = t) then [next this] else []).
Proof.
  unfold elements_of_type.
  replace (length (elements (graph (grown this d ls))))
    with (length (elements (graph this)) + 1)
    by (unfold grown; simpl; by rewrite length_app).
  rewrite seq_app, filter_app. cbn [seq]. f_equal.
  - apply filter_agree. intros x Hx. apply elem_of_seq in Hx.
    rewrite (grown_type_old this d ls x); [done|]. apply bool_decide_eq_true. lia.
  - rewrite filter_cons, filter_nil.
    change (0 + length (elements (graph this))) with (next this).
    pose proof (grown_type this d ls) as Hnew.
    destruct (decide (type_of (graph (grown this d ls)) (next this) = Some t)) as [H|H];
      destruct (decide (el_type d = t)) as [H'|H']; try done.
    + rewrite Hnew in H. congruence.
    + destruct H. rewrite Hnew. by f_equal.
Qed.

Lemma collection_of_inj t t' col :
  collection_of t = Some col → collection_of t' = Some col → t = t'.
Proof.
  intros H H'. rewrite <- H in H'.
  destruct t; try discriminate H; destruct t'; first [reflexivity | discriminate H'].
Qed.

Lemma collection_not_buffer_link t : collection_of t ≠ Some Accessor.BUFFER_LINK.
Proof. by destruct t. Qed.

Lemma root_collection_created call :
  root_collection call = collection_of (created_type call).
Proof. by destruct call. Qed.

Lemma link_in_children g l :
  l ∈ links g → link_target l ∈ listChildren g (link_owner l) (link_name l).
Proof.
  intros Hl. unfold listChildren. apply list_elem_of_fmap. exists l. split; [done|].
  by apply list_elem_of_filter.
Qed.

Lemma child_has_link g owner relation x :
  x ∈ listChildren g owner relation → mkLink owner relation x ∈ links g.
Proof.
  unfold listChildren. intros H. apply list_elem_of_fmap in H as (l & -> & Hl).
  apply list_elem_of_filter in Hl as [[<- <-] Hl]. by destruct l.
Qed.

End BuiltFacts.

Section BuiltInvariant.
Import Container Built.

Implicit Types (g : ElementGraph) (e x : ElemId) (this : Container) (l : Link)
  (d : ElementData) (t : PropertyType).

(** What a factory call does to a well-formed container, in one equation. *)
Lemma invoke_grown this call :
  wf this → args_ok this call →
  invoke call this = Ok (next this, grown this (created call) (added_links this call)).
Proof.
  intros Hwf Hargs. destruct (run_invoke this call Hwf Hargs) as (ls & Hrun & ->).
  exact Hrun.
Qed.

Lemma step_grown this this' :
  wf this → step this this' →
  ∃ call, args_ok this call ∧
          this' = grown this (created call) (added_links this call).
Proof.
  intros Hwf Hstep. destruct Hstep as [c call e c' Hargs Hrun].
  exists call. split; [done|].
  rewrite (invoke_grown c call Hwf Hargs) in Hrun. by injection Hrun as _ <-.
Qed.

Lemma added_root_children this call col :
  wf this →
  link_target <$> filter (λ l, link_owner l = root this ∧ link_name l = col)
                         (added_links this call)
  = if decide (root_collection call = Some col) then [next this] else [].
Proof.
  intros Hwf. pose proof (wf_root_not_next this Hwf) as Hne.
  destruct call; cbn [added_links root_collection];
    try apply attach_children; try (by rewrite decide_False).
  rewrite filter_cons_False by (intros [Ho _]; cbn in Ho; congruence).
  apply attach_children.
Qed.

Lemma added_owner this call l :
  l ∈ added_links this call → link_owner l = root this ∨ link_owner l = next this.
Proof.
  destruct call; cbn; intros Hl;
    repeat (apply elem_of_cons in Hl as [->|Hl]); try (by apply elem_of_nil in Hl);
    cbn; auto.
Qed.

Lemma created_not_root call : created_type call ≠ ROOT.
Proof. by destruct call. Qed.

Lemma inv_new : inv new.
Proof.
  split.
  - apply wf_new.
  - reflexivity.
  - intros x Hx. unfold type_of, new in Hx; simpl in Hx.
    destruct x as [|x]; [done|]. by destruct x.
  - intros l Hl. by apply elem_of_nil in Hl.
  - intros t col Hcol. unfold Root.list, listChildren, elements_of_type, new; simpl.
    rewrite filter_cons_False; [done|].
    unfold type_of; simpl. intros [= <-]. discriminate Hcol.
  - intros a Ha. unfold type_of, new in Ha; simpl in Ha.
    destruct a as [|a]; [discriminate|]. by destruct a.
Qed.

Lemma inv_grown this call :
  inv this → args_ok this call →
  inv (grown this (created call) (added_links this call)).
Proof.
  intros Hinv Hargs. pose proof (inv_wf _ Hinv) as Hwf.
  pose proof (invoke_grown this call Hwf Hargs) as Hrun.
  pose proof (wf_root_not_next this Hwf) as Hne.
  pose proof (type_of_has_element _ _ _ (wf_root _ Hwf)) as Hroot.
  set (this' := grown this (created call) (added_links this call)) in *.
  assert (type_of (graph this') (next this) = Some (created_type call)) as Hnew
    by apply grown_type.
  split.
  - exact (invoke_preserves_wf this call _ _ Hwf Hargs Hrun).
  - exact (inv_root _ Hinv).
  - intros x Hx. apply grown_type_inv in Hx as [Hx|[_ Hx]].
    + exact (inv_one_root _ Hinv x Hx).
    + by destruct (created_not_root call).
  - intros l Hl. unfold this', grown in Hl; cbn [graph links] in Hl.
    apply elem_of_app in Hl as [Hl|Hl].
    + destruct (inv_links _ Hinv l Hl) as [[Ho (t & Hc & Ht)]|(Hn & Ho & Ht & Hlt)].
      * left. split; [done|]. exists t. split; [done|]. by apply grown_type_keeps.
      * right. repeat split; try done; by apply grown_type_keeps.
    + destruct call; cbn in Hl;
        repeat (apply elem_of_cons in Hl as [->|Hl]); try (by apply elem_of_nil in Hl);
        try (left; split; [reflexivity|]; eexists; split; [|exact Hnew]; reflexivity).
      right. cbn in Hargs. repeat split; cbn [link_owner link_target link_name].
      * exact Hnew.
      * by apply grown_type_keeps.
      * apply (type_of_has_element _ _ BUFFER) in Hargs.
        by apply bool_decide_eq_true in Hargs.
  - intros t col Hcol. unfold Root.list. change (root this') with (root this).
    unfold this' at 1. rewrite grown_children.
    rewrite (added_root_children this call col Hwf).
    unfold this'. rewrite elements_of_type_grown.
    pose proof (inv_collections _ Hinv t col Hcol) as Hold. unfold Root.list in Hold.
    rewrite Hold. f_equal. cbn [created el_type].
    rewrite root_collection_created.
    destruct (decide (collection_of (created_type call) = Some col)) as [H|H];
      destruct (decide (created_type call = t)) as [H'|H']; try done.
    + destruct H'. by apply (collection_of_inj _ _ col).
    + destruct H. by rewrite H'.
  - intros a Ha. unfold this' at 1. rewrite grown_children.
    apply grown_type_inv in Ha as [Ha|[-> Ha]].
    + destruct (inv_buffer _ Hinv a Ha) as [b Hb]. exists b. rewrite Hb.
      rewrite filter_keeps_none; [done|]. apply Forall_forall. intros l Hl [Ho _].
      apply added_owner in Hl as [Hl|Hl]; rewrite Hl in Ho.
      * rewrite <- Ho, (wf_root _ Hwf) in Ha. discriminate.
      * apply type_of_has_element in Ha. rewrite <- Ho, next_fresh in Ha. discriminate.
    + rewrite (wf_no_children_of_new this _ _ Hwf (next_fresh this)).
      destruct call; try discriminate Ha. exists buffer. cbn [added_links].
      rewrite filter_cons_True by done.
      rewrite filter_cons_False by (intros [Ho _]; cbn in Ho; congruence).
      reflexivity.
Qed.

Lemma inv_step this this' : inv this → step this this' → inv this'.
Proof.
  intros Hinv Hstep.
  destruct (step_grown this this' (inv_wf _ Hinv) Hstep) as (call & Hargs & ->).
  by apply inv_grown.
Qed.

Lemma inv_later this this' : inv this → later this this' → inv this'.
Proof. intros Hinv Hl. induction Hl as [|a b c Hab _ IH]; [done|]. apply IH. by apply (inv_step a). Qed.

Lemma built_inv this : built this → inv this.
Proof. apply inv_later, inv_new. Qed.

End BuiltInvariant.

Section BuiltFrame.
Import Container Built.

Implicit Types (g : ElementGraph) (e x : ElemId) (this : Container) (l : Link)
  (d : ElementData) (t : PropertyType).

Lemma step_wf this this' : wf this → step this this' → wf this'.
Proof.
  intros Hwf Hstep. destruct Hstep as [c call e c' Hargs Hrun].
  exact (invoke_preserves_wf c call e c' Hwf Hargs Hrun).
Qed.

(** Factory calls only ever append: to the registry of Elements and to the
    links. *)
Lemma later_appends this this' :
  wf this → later this this' →
  wf this' ∧ root this' = root this ∧
  elements (graph this) `prefix_of` elements (graph this') ∧
  links (graph this) `prefix_of` links (graph this').
Proof.
  intros Hwf Hl. induction Hl as [a|a b c Hab _ IH]; [done|].
  pose proof (step_wf a b Hwf Hab) as Hwfb.
  destruct (IH Hwfb) as (Hwfc & Hroot & Hel & Hli).
  destruct (step_grown a b Hwf Hab) as (call & _ & ->).
  split; [done|]. split; [by rewrite Hroot|].
  split; (etrans; [|eassumption]); unfold grown; cbn; by apply prefix_app_r.
Qed.

Lemma prefix_children g g' owner relation :
  links g `prefix_of` links g' →
  listChildren g owner relation `prefix_of` listChildren g' owner relation.
Proof.
  intros [k Hk]. unfold listChildren. rewrite Hk, filter_app, fmap_app.
  by apply prefix_app_r.
Qed.

Lemma prefix_type g g' x t :
  elements g `prefix_of` elements g' → type_of g x = Some t → type_of g' x = Some t.
Proof.
  intros Hp H. unfold type_of in *.
  destruct (elements g !! x) as [d|] eqn:E; [|discriminate].
  pose proof (prefix_lookup_Some _ _ _ _ E Hp) as E'.
  unfold ElemId in *. by rewrite E'.
Qed.

Lemma prefix_name g g' x n :
  elements g `prefix_of` elements g' → name_of g x = Some n → name_of g' x = Some n.
Proof.
  intros Hp H. unfold name_of in *.
  destruct (elements g !! x) as [d|] eqn:E; [|discriminate].
  pose proof (prefix_lookup_Some _ _ _ _ E Hp) as E'.
  unfold ElemId in *. by rewrite E'.
Qed.

Lemma built_with_buffer : built with_buffer.
Proof. apply rtc_once. exact (step_invoke new (CreateBuffer "") 1 with_buffer I eq_refl). Qed.

Lemma with_accessor_created :
  createAccessor "POSITION" 1 with_buffer = Ok (2, with_accessor).
Proof. reflexivity. Qed.

Lemma built_with_accessor : built with_accessor.
Proof.
  eapply rtc_r; [exact built_with_buffer|].
  exact (step_invoke with_buffer (CreateAccessor "POSITION" 1) 2 with_accessor
           eq_refl with_accessor_created).
Qed.

End BuiltFrame.

Section BuiltTheorems.
Import Container Built.

Implicit Types (g : ElementGraph) (e x : ElemId) (this : Container) (l : Link)
  (d : ElementData) (t : PropertyType).

Lemma collection_of_listed t col : collection_of t = Some col → col ∈ Root.collections.
Proof.
  unfold Root.collections. destruct t; intros [= <-]; set_solver.
Qed.

Lemma listed_collection_of col :
  col ∈ Root.collections → ∃ t, collection_of t = Some col.
Proof.
  unfold Root.collections. intros H.
  repeat (apply elem_of_cons in H as [->|H]);
    [by exists SCENE | by exists NODE | by exists MESH | by exists MATERIAL
    | by exists TEXTURE | by exists ACCESSOR | by exists BUFFER |].
  by apply elem_of_nil in H.
Qed.

Lemma inv_root_children_typed this col x :
  inv this → x ∈ listChildren (graph this) (root this) col →
  ∃ t, collection_of t = Some col ∧ type_of (graph this) x = Some t.
Proof.
  intros Hinv Hx. apply child_has_link in Hx.
  destruct (inv_links _ Hinv _ Hx) as [[_ (t & Hc & Ht)]|(_ & Ho & _)].
  - by exists t.
  - cbn in Ho. rewrite (wf_root _ (inv_wf _ Hinv)) in Ho. discriminate.
Qed.

Lemma inv_buffer_typed this a b :
  inv this → b ∈ listChildren (graph this) a Accessor.BUFFER_LINK →
  type_of (graph this) a = Some ACCESSOR ∧ type_of (graph this) b = Some BUFFER ∧ b < a.
Proof.
  intros Hinv Hb. apply child_has_link in Hb.
  destruct (inv_links _ Hinv _ Hb) as [[_ (t & Hc & _)]|(_ & Ho & Ht & Hlt)].
  - cbn in Hc. by destruct (collection_not_buffer_link t).
  - done.
Qed.

Lemma elem_of_elements_of_type g x t :
  x ∈ elements_of_type g t ↔ type_of g x = Some t.
Proof.
  unfold elements_of_type. rewrite list_elem_of_filter, elem_of_seq. split; [tauto|].
  intros H. split; [done|]. apply type_of_has_element in H.
  apply bool_decide_eq_true in H. lia.
Qed.

(** X1: in a container built from [new Container()] by factory calls,
    [getRoot()] is still the Element it was at construction, it is the only
    Element of type Root, and no factory call returns it or replaces it. *)
Theorem built_has_one_root this :
  built this →
  getRoot this = getRoot new ∧
  type_of (getGraph this) (getRoot this) = Some ROOT ∧
  (∀ x, type_of (getGraph this) x = Some ROOT → x = getRoot this) ∧
  (∀ call e this', args_ok this call → invoke call this = Ok (e, this') →
     e ≠ getRoot this' ∧ getRoot this' = getRoot this).
Proof.
  intros Hb. pose proof (built_inv this Hb) as Hinv.
  pose proof (inv_wf _ Hinv) as Hwf. unfold getRoot, getGraph.
  split; [exact (inv_root _ Hinv)|]. split; [exact (wf_root _ Hwf)|].
  split; [exact (inv_one_root _ Hinv)|].
  intros call e this' Hargs Hrun.
  rewrite (invoke_grown this call Hwf Hargs) in Hrun. injection Hrun as <- <-.
  split; [|reflexivity]. cbn [grown root].
  intros Heq. by destruct (wf_root_not_next this Hwf).
Qed.

Lemma built_has_one_root_witness :
  built with_accessor ∧
  getRoot with_accessor = 0 ∧
  type_of (getGraph with_accessor) 0 = Some ROOT.
Proof.
  split; [exact built_with_accessor|].
  destruct (built_has_one_root with_accessor built_with_accessor) as (Hr & Ht & _).
  split; [exact Hr | exact Ht].
Defined.

(** X2: in a built container each of Root's seven collections is exactly the
    Elements of its type, each once, in the order they were created; a
    Primitive or the Root is in none of them. *)
Theorem root_lists_elements_by_type this :
  built this →
  (∀ t col, collection_of t = Some col →
     Root.list col (getGraph this) (getRoot this) = elements_of_type (getGraph this) t) ∧
  (∀ col, col ∉ Root.collections → Root.list col (getGraph this) (getRoot this) = []) ∧
  (∀ col, NoDup (Root.list col (getGraph this) (getRoot this))) ∧
  (∀ col x, x ∈ Root.list col (getGraph this) (getRoot this) →
     ∃ t, collection_of t = Some col ∧ type_of (getGraph this) x = Some t) ∧
  (∀ x t col, type_of (getGraph this) x = Some t → collection_of t = Some col →
     x ∈ Root.list col (getGraph this) (getRoot this)).
Proof.
  intros Hb. pose proof (built_inv this Hb) as Hinv. unfold getRoot, getGraph.
  assert (∀ col, col ∉ Root.collections → Root.list col (graph this) (root this) = [])
    as Hnone.
  { intros col Hcol. destruct (Root.list col (graph this) (root this)) as [|x xs] eqn:E;
      [done|].
    assert (x ∈ listChildren (graph this) (root this) col) as Hx
      by (unfold Root.list in E; rewrite E; by left).
    destruct (inv_root_children_typed this col x Hinv Hx) as (t & Hc & _).
    by destruct Hcol; apply (collection_of_listed t). }
  split; [exact (inv_collections _ Hinv)|]. split; [exact Hnone|].
  split; [|split].
  - intros col. destruct (decide (col ∈ Root.collections)) as [Hin|Hout].
    + destruct (listed_collection_of col Hin) as [t Ht].
      rewrite (inv_collections _ Hinv t col Ht). apply NoDup_filter, NoDup_seq.
    + rewrite (Hnone col Hout). constructor.
  - intros col x Hx. by apply inv_root_children_typed.
  - intros x t col Ht Hc. rewrite (inv_collections _ Hinv t col Hc).
    by apply elem_of_elements_of_type.
Qed.

Lemma root_lists_elements_by_type_witness :
  built with_accessor ∧
  Root.list Root.BUFFERS (getGraph with_accessor) (getRoot with_accessor) = [1] ∧
  Root.list Root.ACCESSORS (getGraph with_accessor) (getRoot with_accessor) = [2].
Proof.
  split; [exact built_with_accessor|].
  destruct (root_lists_elements_by_type with_accessor built_with_accessor) as (H & _).
  split; [rewrite (H BUFFER) by reflexivity | rewrite (H ACCESSOR) by reflexivity];
    reflexivity.
Defined.

Lemma built_later this this' : built this → later this this' → built this'.
Proof. intros Hb Hl. unfold built, later in *. by etrans. Qed.

(** X3: in a built container every Accessor has exactly one Buffer: a Buffer
    Element of the container, created before the Accessor and listed by
    Root; no factory call made afterwards changes it. *)
Theorem accessor_keeps_its_buffer this a :
  built this → type_of (getGraph this) a = Some ACCESSOR →
  ∃ b, Accessor.getBuffer (getGraph this) a = Some b ∧
       listChildren (getGraph this) a Accessor.BUFFER_LINK = [b] ∧
       type_of (getGraph this) b = Some BUFFER ∧
       b < a ∧
       b ∈ Root.list Root.BUFFERS (getGraph this) (getRoot this) ∧
       ∀ this', later this this' → Accessor.getBuffer (getGraph this') a = Some b.
Proof.
  intros Hb Ha. pose proof (built_inv this Hb) as Hinv. unfold getRoot, getGraph in *.
  destruct (inv_buffer _ Hinv a Ha) as [b Hlist]. exists b.
  assert (b ∈ listChildren (graph this) a Accessor.BUFFER_LINK) as Hin
    by (rewrite Hlist; by left).
  destruct (inv_buffer_typed this a b Hinv Hin) as (_ & Htb & Hlt).
  split; [unfold Accessor.getBuffer; by rewrite Hlist|]. split; [done|].
  split; [done|]. split; [done|]. split.
  - rewrite (inv_collections _ Hinv BUFFER Root.BUFFERS eq_refl).
    by apply elem_of_elements_of_type.
  - intros this' Hl.
    pose proof (built_inv this' (built_later this this' Hb Hl)) as Hinv'.
    destruct (later_appends this this' (inv_wf _ Hinv) Hl) as (_ & _ & Hel & Hli).
    destruct (inv_buffer _ Hinv' a (prefix_type _ _ _ _ Hel Ha)) as [b' Hlist'].
    pose proof (prefix_children _ _ a Accessor.BUFFER_LINK Hli) as Hp.
    rewrite Hlist, Hlist' in Hp. destruct Hp as [k Hk]. injection Hk as -> _.
    unfold Accessor.getBuffer. by rewrite Hlist'.
Qed.

Lemma accessor_keeps_its_buffer_witness :
  built with_accessor ∧
  type_of (getGraph with_accessor) 2 = Some ACCESSOR ∧
  ∃ b, Accessor.getBuffer (getGraph with_accessor) 2 = Some b ∧
       type_of (getGraph with_accessor) b = Some BUFFER ∧ b < 2.
Proof.
  split; [exact built_with_accessor|]. split; [reflexivity|].
  destruct (accessor_keeps_its_buffer with_accessor 2 built_with_accessor eq_refl)
    as (b & Hb & _ & Ht & Hlt & _).
  exists b. split; [exact Hb|]. split; [exact Ht | exact Hlt].
Defined.

(** X4: in a built container every link is either Root's link to a member of
    one of its collections or an Accessor's link to its Buffer; a Primitive
    made by [createPrimitive] is therefore at neither end of any link and in
    no Root collection, whatever factory calls came after it. *)
Theorem primitive_stays_unlinked this p :
  built this → type_of (getGraph this) p = Some PRIMITIVE →
  (∀ l, l ∈ links (getGraph this) →
     (root_link this l ∨ buffer_link this l) ∧ link_owner l ≠ p ∧ link_target l ≠ p) ∧
  (∀ relation, listChildren (getGraph this) p relation = []) ∧
  (∀ col, p ∉ Root.list col (getGraph this) (getRoot this)).
Proof.
  intros Hb Hp. pose proof (built_inv this Hb) as Hinv. unfold getRoot, getGraph in *.
  pose proof (wf_root _ (inv_wf _ Hinv)) as Hroot.
  assert (∀ l, l ∈ links (graph this) → link_owner l ≠ p ∧ link_target l ≠ p) as Hfree.
  { intros l Hl.
    destruct (inv_links _ Hinv l Hl) as [[Ho (t & Hc & Ht)]|(_ & Ho & Ht & _)].
    - split; intros Heq.
      + rewrite Heq in Ho. rewrite Ho, Hroot in Hp. discriminate.
      + rewrite Heq, Hp in Ht. injection Ht as <-. discriminate Hc.
    - split; intros Heq; rewrite Heq, Hp in *; discriminate. }
  split; [|split].
  - intros l Hl. split; [exact (inv_links _ Hinv l Hl) | exact (Hfree l Hl)].
  - intros relation.
    destruct (listChildren (graph this) p relation) as [|x xs] eqn:E; [done|].
    assert (x ∈ listChildren (graph this) p relation) as Hx by (rewrite E; by left).
    apply child_has_link in Hx. by destruct (Hfree _ Hx) as [Ho _].
  - intros col Hin. apply child_has_link in Hin. by destruct (Hfree _ Hin) as [_ Ht].
Qed.

Lemma primitive_stays_unlinked_witness :
  ∃ this p,
    built this ∧ type_of (getGraph this) p = Some PRIMITIVE ∧
    (∀ col, p ∉ Root.list col (getGraph this) (getRoot this)).
Proof.
  exists (grown with_accessor (created CreatePrimitive) []), 3.
  assert (built (grown with_accessor (created CreatePrimitive) [])) as Hb.
  { eapply rtc_r; [exact built_with_accessor|].
    exact (step_invoke with_accessor CreatePrimitive 3 _ I eq_refl). }
  split; [exact Hb|]. split; [reflexivity|].
  destruct (primitive_stays_unlinked _ 3 Hb eq_refl) as (_ & _ & H). exact H.
Defined.

End BuiltTheorems.

Section BuiltComposition.
Import Container Built.

Implicit Types (g : ElementGraph) (e x : ElemId) (this : Container) (l : Link)
  (d : ElementData) (t : PropertyType).

(** X5: factory calls only ever add.  Whatever calls are made on a container,
    [getRoot()] stays the same, every Element keeps its type and its name,
    every link stays, and every Root collection keeps its members in place,
    new ones coming after them. *)
Theorem factory_calls_only_append this this' :
  wf this → later this this' →
  getRoot this' = getRoot this ∧
  (∀ x t, type_of (getGraph this) x = Some t → type_of (getGraph this') x = Some t) ∧
  (∀ x n, name_of (getGraph this) x = Some n → name_of (getGraph this') x = Some n) ∧
  (∀ l, l ∈ links (getGraph this) → l ∈ links (getGraph this')) ∧
  (∀ col, Root.list col (getGraph this) (getRoot this)
            `prefix_of` Root.list col (getGraph this') (getRoot this')).
Proof.
  intros Hwf Hl. unfold getRoot, getGraph.
  destruct (later_appends this this' Hwf Hl) as (_ & Hroot & Hel & Hli).
  split; [done|]. split; [|split; [|split]].
  - intros x t. by apply prefix_type.
  - intros x n. by apply prefix_name.
  - intros l Hin. destruct Hli as [k ->]. apply elem_of_app. by left.
  - intros col. unfold Root.list. rewrite Hroot. by apply prefix_children.
Qed.

Lemma factory_calls_only_append_witness :
  wf with_buffer ∧ later with_buffer with_accessor ∧
  type_of (getGraph with_accessor) 1 = Some BUFFER ∧
  [1] `prefix_of` Root.list Root.BUFFERS (getGraph with_accessor) (getRoot with_accessor).
Proof.
  assert (later with_buffer with_accessor) as Hl.
  { apply rtc_once.
    exact (step_invoke with_buffer (CreateAccessor "POSITION" 1) 2 with_accessor
             eq_refl with_accessor_created). }
  split; [exact wf_with_buffer|]. split; [exact Hl|].
  destruct (factory_calls_only_append with_buffer with_accessor wf_with_buffer Hl)
    as (_ & Ht & _ & _ & Hp).
  split; [exact (Ht 1 BUFFER eq_refl) | exact (Hp Root.BUFFERS)].
Defined.

(** What two factory calls, the second any number of calls after the first,
    leave behind. *)
Lemma two_calls this call1 e1 this1 this2 call2 e2 this3 :
  wf this → args_ok this call1 → invoke call1 this = Ok (e1, this1) →
  later this1 this2 → args_ok this2 call2 → invoke call2 this2 = Ok (e2, this3) →
  e1 = next this ∧ e2 = next this2 ∧ e1 < e2 ∧ wf this2 ∧
  this1 = grown this (created call1) (added_links this call1) ∧
  this3 = grown this2 (created call2) (added_links this2 call2) ∧
  root this2 = root this ∧
  elements (graph this1) `prefix_of` elements (graph this2) ∧
  links (graph this1) `prefix_of` links (graph this2).
Proof.
  intros Hwf Ha1 Hr1 Hl Ha2 Hr2.
  rewrite (invoke_grown this call1 Hwf Ha1) in Hr1. injection Hr1 as <- <-.
  assert (wf (grown this (created call1) (added_links this call1))) as Hwf1.
  { apply (invoke_preserves_wf this call1 (next this) _ Hwf Ha1).
    by apply invoke_grown. }
  destruct (later_appends _ this2 Hwf1 Hl) as (Hwf2 & Hroot & Hel & Hli).
  rewrite (invoke_grown this2 call2 Hwf2 Ha2) in Hr2. injection Hr2 as <- <-.
  split; [reflexivity|]. split; [reflexivity|]. split.
  { apply prefix_length in Hel. unfold grown, next in *; cbn in Hel.
    rewrite length_app in Hel; cbn in Hel. lia. }
  split; [exact Hwf2|]. split; [reflexivity|]. split; [reflexivity|].
  split; [exact Hroot|]. split; [exact Hel | exact Hli].
Qed.

(** X6: two factory calls never return the same Element, even when they are
    given the same name; both Elements are in the container after the second
    call, each with the type of its factory and the name it was given. *)
Theorem factory_results_are_distinct this call1 e1 this1 this2 call2 e2 this3 :
  wf this → args_ok this call1 → invoke call1 this = Ok (e1, this1) →
  later this1 this2 → args_ok this2 call2 → invoke call2 this2 = Ok (e2, this3) →
  e1 ≠ e2 ∧
  type_of (getGraph this3) e1 = Some (created_type call1) ∧
  name_of (getGraph this3) e1 = Some (created_name call1) ∧
  type_of (getGraph this3) e2 = Some (created_type call2) ∧
  name_of (getGraph this3) e2 = Some (created_name call2).
Proof.
  intros Hwf Ha1 Hr1 Hl Ha2 Hr2.
  destruct (two_calls _ _ _ _ _ _ _ _ Hwf Ha1 Hr1 Hl Ha2 Hr2)
    as (-> & -> & Hlt & Hwf2 & -> & -> & _ & Hel & _).
  unfold getGraph. split; [lia|].
  assert (elements (graph (grown this (created call1) (added_links this call1)))
            `prefix_of`
          elements (graph (grown this2 (created call2) (added_links this2 call2))))
    as Hel' by (etrans; [exact Hel|]; unfold grown; cbn; by apply prefix_app_r).
  split; [|split; [|split]].
  - apply (prefix_type _ _ _ _ Hel'), grown_type.
  - apply (prefix_name _ _ _ _ Hel'), grown_name.
  - apply grown_type.
  - apply grown_name.
Qed.

Lemma factory_results_are_distinct_witness :
  ∃ e1 this1 e2 this3,
    wf new ∧ args_ok new (CreateTexture "tex2") ∧
    invoke (CreateTexture "tex2") new = Ok (e1, this1) ∧
    later this1 this1 ∧ args_ok this1 (CreateTexture "tex2") ∧
    invoke (CreateTexture "tex2") this1 = Ok (e2, this3) ∧
    e1 ≠ e2 ∧
    name_of (getGraph this3) e1 = Some "tex2" ∧
    name_of (getGraph this3) e2 = Some "tex2".
Proof.
  eexists _, _, _, _.
  split; [exact wf_new|]. split; [exact I|]. split; [reflexivity|].
  split; [apply rtc_refl|]. split; [exact I|]. split; [reflexivity|].
  destruct (factory_results_are_distinct new (CreateTexture "tex2") _ _ _
              (CreateTexture "tex2") _ _ wf_new I eq_refl (rtc_refl _ _) I eq_refl)
    as (Hne & _ & Hn1 & _ & Hn2).
  split; [exact Hne|]. split; [exact Hn1 | exact Hn2].
Defined.

(** X7: Root lists Elements in the order they were created: of two Elements
    made by factories of the same type, the one made first comes first in
    [listX()], and the one just made is the last. *)
Theorem root_lists_in_creation_order this call1 e1 this1 this2 call2 e2 this3 col :
  wf this → args_ok this call1 → invoke call1 this = Ok (e1, this1) →
  later this1 this2 → args_ok this2 call2 → invoke call2 this2 = Ok (e2, this3) →
  root_collection call1 = Some col → root_collection call2 = Some col →
  ∃ between,
    Root.list col (getGraph this3) (getRoot this3) =
    Root.list col (getGraph this) (getRoot this) ++ e1 :: between ++ [e2].
Proof.
  intros Hwf Ha1 Hr1 Hl Ha2 Hr2 Hc1 Hc2.
  destruct (two_calls _ _ _ _ _ _ _ _ Hwf Ha1 Hr1 Hl Ha2 Hr2)
    as (-> & -> & _ & Hwf2 & -> & -> & Hroot & _ & Hli).
  unfold getGraph, getRoot, Root.list. cbn [grown root].
  rewrite grown_children, (added_root_children this2 call2 col Hwf2).
  rewrite decide_True by done.
  pose proof (prefix_children _ _ (root this) col Hli) as [between Hb].
  rewrite grown_children, (added_root_children this call1 col Hwf) in Hb.
  rewrite decide_True in Hb by done.
  exists between. rewrite Hroot, Hb. by rewrite <- !app_assoc.
Qed.

Lemma root_lists_in_creation_order_witness :
  ∃ e1 this1 e2 this3 between,
    wf new ∧
    invoke (CreateTexture "tex2") new = Ok (e1, this1) ∧
    invoke (CreateTexture "tex2") this1 = Ok (e2, this3) ∧
    Root.list Root.TEXTURES (getGraph this3) (getRoot this3) = e1 :: between ++ [e2].
Proof.
  destruct (root_lists_in_creation_order new (CreateTexture "tex2") _ _ _
              (CreateTexture "tex2") _ _ Root.TEXTURES
              wf_new I eq_refl (rtc_refl _ _) I eq_refl eq_refl eq_refl)
    as [between Hb].
  eexists _, _, _, _, between.
  split; [exact wf_new|]. split; [reflexivity|]. split; [reflexivity|]. exact Hb.
Defined.

End BuiltComposition.
